(** * Innovation Science Calculator: the two scoring formulas

    A shallow embedding of
    [innovation-science/tools-and-frameworks/innovation-calculator.py]
    and the proofs of its specification.

    Numbers.  The script computes on Python numbers: binary64 floats, and
    the [complex] numbers made of two of them.  An input is a real number,
    the value of the float or of the [int] the function is called on.  The
    embedding [PyNum] keeps what decides whether a call returns, and with
    which kind of value:
    - a finite number is a real of the Standard Library ([R]); a float
      can also be an infinity or NaN ([PyNum.pyfloat]);
    - a result whose magnitude reaches [PyNum.overflow_threshold] does
      not fit binary64: [**] raises [OverflowError] on it, [*], [+] and
      [-] yield an infinity, an infinity times zero is NaN, and no
      ordering comparison holds of NaN;
    - [**] on a negative base and a fractional exponent yields a
      [complex], and an ordering comparison ([min], [max]) on a [complex]
      raises [TypeError].
    Below the threshold the arithmetic of [PyNum] is exact: the rounding
    of each operation to 53 significant bits, and with it the underflow of
    a tiny result to 0, is not part of it.  The statements over a range
    of inputs are the ones that rounding leaves alone: bounds are not
    strict, and inputs stay away from the threshold.  Where rounding
    decides, the curve is evaluated in binary64 itself ([Binary64]). *)

From Stdlib Require Import Floats.
From Stdlib Require Import Reals Lra ZArith Lia Bool.
From ExtLib Require Import Structures.Monad Structures.MonadExc.
From ExtLib Require Import Data.Monads.EitherMonad.
From Stdlib Require Import String List DecimalString.
Import ListNotations.
Import MonadNotation.
Local Open Scope monad_scope.
Local Open Scope R_scope.

(** A decimal literal of a float denotes the nearest float, as in Python. *)
Set Warnings "-inexact-float".

(** ** Python numbers and the operators the script uses *)

Module PyNum.

(** The least magnitude that binary64 rounds to an infinity: halfway
    between the largest float, 2^1024 - 2^971, and 2^1024. *)
Definition overflow_threshold : R := IZR (2 ^ 1024 - 2 ^ 970).

Definition Rltb (x y : R) : bool := if Rlt_dec x y then true else false.

Definition overflows (x : R) : bool :=
  if Rle_dec overflow_threshold (Rabs x) then true else false.

(** A float: a finite number, an infinity with its sign, or NaN. *)
Inductive pyfloat : Type :=
| Fin (x : R)
| Inf (negative : bool)
| NaN.

(** The float that holds the exact result [x] of an operation. *)
Definition of_exact (x : R) : pyfloat :=
  if overflows x then Inf (Rltb x 0) else Fin x.

Definition fmul (a b : pyfloat) : pyfloat :=
  match a, b with
  | Fin x, Fin y => of_exact (x * y)
  | Fin x, Inf s | Inf s, Fin x =>
      if Req_dec_T x 0 then NaN else Inf (xorb s (Rltb x 0))
  | Inf s, Inf t => Inf (xorb s t)
  | _, _ => NaN
  end.

Definition fadd (a b : pyfloat) : pyfloat :=
  match a, b with
  | Fin x, Fin y => of_exact (x + y)
  | Fin _, Inf s | Inf s, Fin _ => Inf s
  | Inf s, Inf t => if Bool.eqb s t then Inf s else NaN
  | _, _ => NaN
  end.

Definition fsub (a b : pyfloat) : pyfloat :=
  match a, b with
  | Fin x, Fin y => of_exact (x - y)
  | Fin _, Inf s => Inf (negb s)
  | Inf s, Fin _ => Inf s
  | Inf s, Inf t => if Bool.eqb s t then NaN else Inf s
  | _, _ => NaN
  end.

(** [a < b] on floats: false as soon as one of them is NaN. *)
Definition flt (a b : pyfloat) : bool :=
  match a, b with
  | Fin x, Fin y => Rltb x y
  | Fin _, Inf s => negb s
  | Inf s, Fin _ => s
  | Inf s, Inf t => s && negb t
  | _, _ => false
  end.

(** A number at run time: a [float] (an [int] is idealised as one) or a
    [complex] with its real and imaginary parts. *)
Inductive value : Type :=
| Float (x : pyfloat)
| Complex (re im : pyfloat).

(** The finite float [x], and the complex number [re + im j]. *)
Definition Num (x : R) : value := Float (Fin x).

Definition Cplx (re im : R) : value := Complex (Fin re) (Fin im).

(** Python's exceptions for numeric code: [TypeError] (an operation the
    operand's type does not support), [ZeroDivisionError] (zero to a
    negative power), [ValueError] (a math domain error, as [math.sqrt]
    or [math.pow] raise on a negative argument) and [OverflowError] (a
    power too large for a float). *)
Inductive exn : Type :=
| TypeError
| ZeroDivisionError
| ValueError
| OverflowError.

(** A computation returns a value ([inr]) or raises ([inl]); an
    exception raised by a step is the result of the whole sequence,
    since the script has no [try]. *)
Definition result : Type -> Type := sum exn.

(** [w == floor(w)] *)
Definition is_integral (w : R) : bool :=
  if Req_dec_T w (IZR (Int_part w)) then true else false.

(** The result [ix] of the C library's [pow]: out of range, it is
    reported as [OverflowError]. *)
Definition checked (ix : R) : result value :=
  if overflows ix then raise OverflowError else ret (Num ix).

(** The [complex] result of [iv ** iw] for [iv < 0] and fractional
    [iw]: in polar form the base has modulus [- iv] and argument [PI]. *)
Definition neg_base_pow (iv iw : R) : value :=
  let len := Rpower (- iv) iw in
  let phase := PI * iw in
  Cplx (len * cos phase) (len * sin phase).

(** [iv ** iw], by the cases of CPython's [float_pow].  The two operands
    are converted to floats first: an [int] too large for a float raises
    [OverflowError] there (for [int ** 2], which Python computes on
    integers, it is the next operation of the script, a product with a
    float, that converts and raises). *)
Definition float_pow (iv iw : R) : result value :=
  if overflows iv || overflows iw then raise OverflowError
  else if Req_dec_T iw 0 then ret (Num 1)
  else if Req_dec_T iv 0 then
    if Rlt_dec iw 0 then raise ZeroDivisionError else ret (Num 0)
  else if Rlt_dec iv 0 then
    if is_integral iw then
      let ix := Rpower (- iv) iw in
      checked (if Z.odd (Int_part iw) then - ix else ix)
    else
      if overflows (Rpower (- iv) iw) then raise OverflowError
      else ret (neg_base_pow iv iw)
  else checked (Rpower iv iw).

(** Binary arithmetic coerces a float operand to [complex] when the
    other one is. *)
Definition to_complex (v : value) : pyfloat * pyfloat :=
  match v with
  | Float x => (x, Fin 0)
  | Complex re im => (re, im)
  end.

Definition py_mul (a b : value) : value :=
  match a, b with
  | Float x, Float y => Float (fmul x y)
  | _, _ =>
      let '(ar, ai) := to_complex a in
      let '(br, bi) := to_complex b in
      Complex (fsub (fmul ar br) (fmul ai bi)) (fadd (fmul ar bi) (fmul ai br))
  end.

Definition py_sub (a b : value) : value :=
  match a, b with
  | Float x, Float y => Float (fsub x y)
  | _, _ =>
      let '(ar, ai) := to_complex a in
      let '(br, bi) := to_complex b in
      Complex (fsub ar br) (fsub ai bi)
  end.

(** [a < b]: defined on floats only. *)
Definition py_lt (a b : value) : result bool :=
  match a, b with
  | Float x, Float y => ret (flt x y)
  | _, _ => raise TypeError
  end.

(** [a > b] *)
Definition py_gt (a b : value) : result bool :=
  match a, b with
  | Float x, Float y => ret (flt y x)
  | _, _ => raise TypeError
  end.

(** [max(a, b)] and [min(a, b)]: the first argument is kept unless the
    second one compares strictly greater (resp. smaller). *)
Definition py_max (a b : value) : result value :=
  gt <- py_gt b a ;;
  ret (if gt : bool then b else a).

Definition py_min (a b : value) : result value :=
  lt <- py_lt b a ;;
  ret (if lt : bool then b else a).

End PyNum.

Import PyNum.

(** ** The script's two functions *)

Definition innovation_success_curve (constraint_complexity : R) : result value :=
  if Rlt_dec constraint_complexity 2 then
    underfitting_penalty <- float_pow (2 - constraint_complexity) 2 ;;
    py_max (Num 0) (py_sub (Num 0.3) (py_mul underfitting_penalty (Num 0.15)))
  else if Rgt_dec constraint_complexity 5 then
    overfitting_penalty <- float_pow (constraint_complexity - 5) 2 ;;
    py_max (Num 0) (py_sub (Num 0.2) (py_mul overfitting_penalty (Num 0.05)))
  else
    let optimal_distance := Rabs (constraint_complexity - 3.5) in
    squared <- float_pow optimal_distance 2 ;;
    ret (py_sub (Num 0.9) (py_mul squared (Num 0.1))).

Definition calculate_innovation_gospel_value
    (paradox_strength peer_credibility customer_readiness : R) : result value :=
  miracle_impact <- float_pow paradox_strength 1.5 ;;
  gospel_credibility <- float_pow peer_credibility 2 ;;
  adoption_rate <- float_pow customer_readiness 0.5 ;;
  let gospel_value :=
    py_mul (py_mul miracle_impact gospel_credibility) adoption_rate in
  py_min (Num 1.0) gospel_value.

(** ** The curve in binary64

    The same function on the floats of the machine, each operation
    rounded to nearest. *)

Module Binary64.

(** [iv ** 2]: the C library's [pow] returns the rounded square, and an
    overflow is reported as [OverflowError]. *)
Definition float_pow_2 (iv : float) : result float :=
  let ix := (iv * iv)%float in
  if PrimFloat.is_infinity ix && negb (PrimFloat.is_infinity iv)
  then raise OverflowError
  else ret ix.

(** [max(0, x)] *)
Definition py_max_0 (x : float) : float :=
  if (0 <? x)%float then x else 0%float.

Definition innovation_success_curve (constraint_complexity : float) : result float :=
  if (constraint_complexity <? 2)%float then
    underfitting_penalty <- float_pow_2 (2 - constraint_complexity)%float ;;
    ret (py_max_0 (0.3 - underfitting_penalty * 0.15)%float)
  else if (5 <? constraint_complexity)%float then
    overfitting_penalty <- float_pow_2 (constraint_complexity - 5)%float ;;
    ret (py_max_0 (0.2 - overfitting_penalty * 0.05)%float)
  else
    let optimal_distance := PrimFloat.abs (constraint_complexity - 3.5)%float in
    squared <- float_pow_2 optimal_distance ;;
    ret (0.9 - squared * 0.1)%float.

End Binary64.

(** ** The specification's formulas, over the reals *)

Module Spec.

(** [x ^ y] for a real exponent [y > 0] and a base [x >= 0]. *)
Definition rpow (x y : R) : R :=
  if Req_dec_T x 0 then 0 else Rpower x y.

(** Regions A, B and C in the order the specification lists them. *)
Definition SuccessCurve (complexity : R) : R :=
  if Rlt_dec complexity 2 then
    Rmax 0 (0.3 - (2 - complexity) ^ 2 * 0.15)
  else if Rle_dec complexity 5 then
    0.9 - Rabs (complexity - 3.5) ^ 2 * 0.1
  else
    Rmax 0 (0.2 - (complexity - 5) ^ 2 * 0.05).

Definition GospelValue (paradox_strength peer_credibility customer_readiness : R) : R :=
  let miracle_impact := rpow paradox_strength 1.5 in
  let gospel_credibility := peer_credibility ^ 2 in
  let adoption_rate := rpow customer_readiness 0.5 in
  Rmin 1.0 (miracle_impact * gospel_credibility * adoption_rate).

(** [x] is approximately [y], up to the tolerance [tol]; the script
    prints its results with two decimals, a tolerance of 0.005. *)
Definition approx (tol x y : R) : Prop := Rabs (x - y) <= tol.

End Spec.

(** ** The demonstration block

    The block under [if __name__ == "__main__"] prints four lines.  A run
    of the script is a function of the lines printed so far: it returns
    the lines printed when it stops and how it stopped, so that what was
    printed before an exception stays printed. *)

Module Script.

Definition io (A : Type) : Type := list string -> list string * result A.

#[local] Instance Monad_io : Monad io :=
  {| ret := fun _ a out => (out, inr a);
     bind := fun _ _ m k out =>
       match m out with
       | (out', inr a) => k a out'
       | (out', inl e) => (out', inl e)
       end |}.

(** [print(line)] *)
Definition print (line : string) : io unit :=
  fun out => (out ++ [line], inr tt).

(** A call of one of the two functions inside the block. *)
Definition call {A : Type} (r : result A) : io A :=
  fun out => (out, r).

(** [s * n] on a string. *)
Fixpoint str_repeat (s : string) (n : nat) : string :=
  match n with
  | O => EmptyString
  | S k => String.append s (str_repeat s k)
  end.

(** The nearest integer, a tie going to the even one. *)
Definition round_half_even (x : R) : Z :=
  let n := Int_part x in
  let f := frac_part x in
  if Rlt_dec f (1 / 2) then n
  else if Rlt_dec (1 / 2) f then (n + 1)%Z
  else if Z.even n then n else (n + 1)%Z.

(** A non-negative number of hundredths written with two decimals. *)
Definition format_hundredths (n : Z) : string :=
  let units := Z.to_N (n / 100) in
  let cents := Z.to_N (n mod 100) in
  String.append (NilZero.string_of_uint (N.to_uint units))
    (String.append "."
       (String.append (if (cents <? 10)%N then "0" else "")
          (NilZero.string_of_uint (N.to_uint cents)))).

(** [format(x, ".2f")] on a real: the sign, then the magnitude rounded to
    hundredths. *)
Definition format_2f_real (x : R) : string :=
  String.append (if Rlt_dec x 0 then "-" else "")
    (format_hundredths (round_half_even (100 * Rabs x))).

(** [format(x, ".2f")] on a float. *)
Definition format_2f_float (x : pyfloat) : string :=
  match x with
  | Fin x => format_2f_real x
  | Inf negative => if negative then "-inf" else "inf"
  | NaN => "nan"
  end.

(** The sign bit of the imaginary part, which decides the [+] written
    between the two parts of a [complex]. *)
Definition is_negative (x : pyfloat) : bool :=
  match x with
  | Fin x => Rltb x 0
  | Inf negative => negative
  | NaN => false
  end.

(** [format(v, ".2f")], as the f-strings of the block apply it. *)
Definition format_2f (v : value) : string :=
  match v with
  | Float x => format_2f_float x
  | Complex re im =>
      String.append (format_2f_float re)
        (String.append (if is_negative im then "" else "+")
           (String.append (format_2f_float im) "j"))
  end.

Definition main : io unit :=
  print "Innovation Science Calculator" ;;
  print (str_repeat "=" 40) ;;
  let constraint_complexity := 3 in
  success_prob <- call (innovation_success_curve constraint_complexity) ;;
  print (String.append "Spray-on dress constraint optimization: "
           (format_2f success_prob)) ;;
  gospel_value <- call (calculate_innovation_gospel_value 0.8 0.9 0.7) ;;
  print (String.append "Innovation gospel value: " (format_2f gospel_value)).

End Script.

(** ** Facts about the operators *)

(** Evaluates the integer constants under [IZR] (the powers of ten of a
    literal such as [1e154], the powers of two of the threshold), which
    [lra] takes as they are. *)
Ltac eval_IZR :=
  repeat match goal with
  | |- context [IZR ?z] =>
      lazymatch z with
      | Zpos _ => fail | Zneg _ => fail | Z0 => fail
      | _ => let v := eval vm_compute in z in change (IZR z) with (IZR v)
      end
  | H : context [IZR ?z] |- _ =>
      lazymatch z with
      | Zpos _ => fail | Zneg _ => fail | Z0 => fail
      | _ => let v := eval vm_compute in z in change (IZR z) with (IZR v) in H
      end
  end.

Lemma Rabs_le_bounds (a b : R) : Rabs a <= b -> - b <= a <= b.
Proof. unfold Rabs. destruct (Rcase_abs a); lra. Qed.

(** Closes a comparison of constants, or of a bounded variable with a
    constant. *)
Ltac range :=
  repeat match goal with
  | H : Rabs _ <= _ |- _ => apply Rabs_le_bounds in H
  end;
  try apply Rabs_le; try apply Rabs_def1;
  eval_IZR; lra.

Section Operators.

(** The integer part of a real that is an integer. *)
Lemma Int_part_IZR z : Int_part (IZR z) = z.
Proof.
  destruct (base_Int_part (IZR z)) as [Hle Hgt].
  assert (H1 : (Int_part (IZR z) <= z)%Z) by (apply le_IZR; exact Hle).
  assert (H2 : (z < Int_part (IZR z) + 1)%Z).
  { apply lt_IZR. rewrite plus_IZR. simpl. lra. }
  lia.
Qed.

Lemma is_integral_IZR z : is_integral (IZR z) = true.
Proof.
  unfold is_integral. rewrite Int_part_IZR.
  destruct (Req_dec_T (IZR z) (IZR z)); [reflexivity | contradiction].
Qed.

(** Half of an odd integer is not an integer. *)
Lemma is_integral_half_odd (w : R) (k : Z) :
  2 * w = IZR (2 * k + 1) -> is_integral w = false.
Proof.
  intros Hw. unfold is_integral.
  destruct (Req_dec_T w (IZR (Int_part w))) as [E | _]; [exfalso | reflexivity].
  rewrite E in Hw. rewrite <- mult_IZR in Hw.
  apply eq_IZR in Hw. lia.
Qed.

Lemma is_integral_1_5 : is_integral 1.5 = false.
Proof. apply (is_integral_half_odd _ 1). simpl. lra. Qed.

Lemma is_integral_0_5 : is_integral 0.5 = false.
Proof. apply (is_integral_half_odd _ 0). simpl. lra. Qed.

Lemma is_integral_false_nonzero w : is_integral w = false -> w <> 0.
Proof.
  intros H E. subst w. rewrite (is_integral_IZR 0) in H. discriminate.
Qed.

Lemma Rpower_2 x : 0 < x -> Rpower x 2 = x * x.
Proof.
  intros Hx. change 2 with (INR 2). rewrite Rpower_pow by assumption.
  simpl. ring.
Qed.

(** The threshold is beyond 1.7 * 10^308. *)
Lemma overflow_threshold_large : 1.7e308 < overflow_threshold.
Proof. unfold overflow_threshold. eval_IZR. lra. Qed.

Lemma overflow_threshold_gt_10 : 10 < overflow_threshold.
Proof. pose proof overflow_threshold_large. eval_IZR. lra. Qed.

Lemma overflows_false x : Rabs x < overflow_threshold -> overflows x = false.
Proof.
  intros H. unfold overflows.
  destruct (Rle_dec overflow_threshold (Rabs x)); [lra | reflexivity].
Qed.

Lemma overflows_true x : overflow_threshold <= Rabs x -> overflows x = true.
Proof.
  intros H. unfold overflows.
  destruct (Rle_dec overflow_threshold (Rabs x)); [reflexivity | lra].
Qed.

Lemma of_exact_fin x : Rabs x < overflow_threshold -> of_exact x = Fin x.
Proof. intros H. unfold of_exact. rewrite overflows_false by exact H. reflexivity. Qed.

Lemma checked_in_range x : Rabs x < overflow_threshold -> checked x = inr (Num x).
Proof. intros H. unfold checked. rewrite overflows_false by exact H. reflexivity. Qed.

Lemma checked_overflow x : overflow_threshold <= Rabs x -> checked x = inl OverflowError.
Proof. intros H. unfold checked. rewrite overflows_true by exact H. reflexivity. Qed.

(** A step that returned hands its value to the rest of the sequence. *)
Lemma bind_inr {A B : Type} (v : A) (k : A -> result B) :
  bind (inr v : result A) k = k v.
Proof. reflexivity. Qed.

(** A step that raised ends the sequence. *)
Lemma bind_inl {A B : Type} (e : exn) (k : A -> result B) :
  bind (inl e : result A) k = inl e.
Proof. reflexivity. Qed.

Lemma checked_cases x : checked x = inl OverflowError \/ checked x = inr (Num x).
Proof. unfold checked. destruct (overflows x); [left | right]; reflexivity. Qed.

(** On finite floats, and as long as the result is in range, [*] and [-]
    are the ones of the reals. *)
Lemma py_mul_num a b :
  Rabs (a * b) < overflow_threshold -> py_mul (Num a) (Num b) = Num (a * b).
Proof.
  intros H. unfold py_mul, Num, fmul. rewrite of_exact_fin by exact H. reflexivity.
Qed.

Lemma py_sub_num a b :
  Rabs (a - b) < overflow_threshold -> py_sub (Num a) (Num b) = Num (a - b).
Proof.
  intros H. unfold py_sub, Num, fsub. rewrite of_exact_fin by exact H. reflexivity.
Qed.

Lemma Rabs_mul_self (x : R) : Rabs x * Rabs x = x * x.
Proof. unfold Rabs. destruct (Rcase_abs x); ring. Qed.

Lemma Rabs_sqr (x : R) : Rabs (x * x) = x * x.
Proof. apply Rabs_pos_eq. pose proof (Rle_0_sqr x) as H. exact H. Qed.

(** Squaring with [**] never leaves the floats: it gives the square, or
    raises when the square is out of range. *)
Lemma float_pow_2 x : float_pow x 2 = checked (x * x).
Proof.
  unfold float_pow.
  pose proof overflow_threshold_gt_10 as HT.
  rewrite (overflows_false 2) by (rewrite Rabs_pos_eq; lra).
  rewrite orb_false_r.
  destruct (Rle_dec overflow_threshold (Rabs x)) as [Hov | Hov].
  { rewrite (overflows_true x Hov). symmetry. apply checked_overflow.
    rewrite Rabs_sqr, <- Rabs_mul_self.
    assert (H : Rabs x * 1 <= Rabs x * Rabs x) by (apply Rmult_le_compat_l; lra).
    lra. }
  rewrite (overflows_false x) by lra.
  destruct (Req_dec_T 2 0) as [E | _]; [lra |].
  destruct (Req_dec_T x 0) as [E | Hx0].
  - destruct (Rlt_dec 2 0); [lra |]. subst x.
    replace (0 * 0) with 0 by ring.
    rewrite checked_in_range; [reflexivity |].
    rewrite Rabs_R0. pose proof overflow_threshold_gt_10. lra.
  - destruct (Rlt_dec x 0) as [Hneg | Hpos].
    + rewrite (is_integral_IZR 2), (Int_part_IZR 2). simpl.
      rewrite Rpower_2 by lra. replace (- x * - x) with (x * x) by ring.
      reflexivity.
    + rewrite Rpower_2 by lra. reflexivity.
Qed.

Lemma rpow_nonneg x w : 0 <= Spec.rpow x w.
Proof.
  unfold Spec.rpow. destruct (Req_dec_T x 0); [lra |].
  unfold Rpower. left. apply exp_pos.
Qed.

(** A positive exponent on a non-negative base: the real power, or
    [OverflowError]. *)
Lemma float_pow_nonneg_checked x w :
  0 < w <= 2 -> 0 <= x < overflow_threshold ->
  float_pow x w = checked (Spec.rpow x w).
Proof.
  intros Hw Hx. unfold float_pow, Spec.rpow.
  pose proof overflow_threshold_gt_10 as HT.
  rewrite (overflows_false x), (overflows_false w) by (rewrite Rabs_pos_eq; lra).
  cbn [orb].
  destruct (Req_dec_T w 0) as [E | _]; [lra |].
  destruct (Req_dec_T x 0) as [E | Hx0].
  - destruct (Rlt_dec w 0); [lra |].
    rewrite checked_in_range; [reflexivity |].
    rewrite Rabs_R0. pose proof overflow_threshold_gt_10. lra.
  - destruct (Rlt_dec x 0); [lra | reflexivity].
Qed.

Lemma float_pow_nonneg x w :
  0 < w <= 2 -> 0 <= x < overflow_threshold ->
  Spec.rpow x w < overflow_threshold ->
  float_pow x w = inr (Num (Spec.rpow x w)).
Proof.
  intros Hw Hx Hr. rewrite float_pow_nonneg_checked by assumption.
  apply checked_in_range. rewrite Rabs_pos_eq by apply rpow_nonneg. exact Hr.
Qed.

(** A base too large for a float, or a power too large for one. *)
Lemma float_pow_too_large x w :
  overflow_threshold <= x -> float_pow x w = inl OverflowError.
Proof.
  intros Hx. unfold float_pow.
  pose proof overflow_threshold_gt_10 as HT.
  rewrite (overflows_true x) by (rewrite Rabs_pos_eq; lra).
  reflexivity.
Qed.

Lemma float_pow_nonneg_overflow x w :
  0 < w <= 2 -> 0 <= x -> overflow_threshold <= Spec.rpow x w ->
  float_pow x w = inl OverflowError.
Proof.
  intros Hw Hx Hr.
  destruct (Rle_dec overflow_threshold x) as [Hbig | Hsmall].
  - apply float_pow_too_large. exact Hbig.
  - rewrite float_pow_nonneg_checked by lra.
    apply checked_overflow. rewrite Rabs_pos_eq by apply rpow_nonneg. exact Hr.
Qed.

(** On a non-negative base the power is the real power whenever the
    call returns. *)
Lemma float_pow_nonneg_cases x w :
  0 < w <= 2 -> 0 <= x ->
  float_pow x w = inl OverflowError \/ float_pow x w = inr (Num (Spec.rpow x w)).
Proof.
  intros Hw Hx.
  destruct (Rle_dec overflow_threshold x) as [Hbig | Hsmall].
  - left. apply float_pow_too_large. exact Hbig.
  - rewrite float_pow_nonneg_checked by lra. apply checked_cases.
Qed.

(** A fractional exponent on a negative base: a complex number, as long
    as its modulus is in range. *)
Lemma float_pow_neg_frac x w :
  - overflow_threshold < x < 0 -> 0 < w <= 2 -> is_integral w = false ->
  Spec.rpow (- x) w < overflow_threshold ->
  float_pow x w = inr (neg_base_pow x w).
Proof.
  intros Hx Hw2 Hw Hr. unfold float_pow.
  pose proof overflow_threshold_gt_10 as HT.
  rewrite (overflows_false x) by (apply Rabs_def1; lra).
  rewrite (overflows_false w) by (rewrite Rabs_pos_eq; lra).
  cbn [orb].
  destruct (Req_dec_T w 0) as [E | _].
  - exfalso. exact (is_integral_false_nonzero w Hw E).
  - destruct (Req_dec_T x 0) as [E | _]; [lra |].
    destruct (Rlt_dec x 0); [| lra].
    rewrite Hw. rewrite overflows_false; [reflexivity |].
    unfold Spec.rpow in Hr. destruct (Req_dec_T (- x) 0); [lra |].
    rewrite Rabs_pos_eq; [exact Hr |].
    unfold Rpower. left. apply exp_pos.
Qed.

Lemma rpow_half x : 0 <= x -> Spec.rpow x 0.5 = sqrt x.
Proof.
  intros Hx. unfold Spec.rpow. destruct (Req_dec_T x 0) as [E | Hx0].
  - subst x. symmetry. apply sqrt_0.
  - replace 0.5 with (/ 2) by lra. apply Rpower_sqrt. lra.
Qed.

Lemma rpow_three_halves x : 0 <= x -> Spec.rpow x 1.5 = x * sqrt x.
Proof.
  intros Hx. unfold Spec.rpow. destruct (Req_dec_T x 0) as [E | Hx0].
  - subst x. ring.
  - replace 1.5 with (1 + / 2) by lra.
    rewrite Rpower_plus, Rpower_1, Rpower_sqrt by lra. reflexivity.
Qed.

Lemma rpow_mono x y w : 0 < w -> 0 <= x <= y -> Spec.rpow x w <= Spec.rpow y w.
Proof.
  intros Hw [Hx Hxy]. unfold Spec.rpow.
  destruct (Req_dec_T x 0) as [Ex | Hx0]; destruct (Req_dec_T y 0) as [Ey | Hy0].
  - lra.
  - unfold Rpower. left. apply exp_pos.
  - lra.
  - apply Rle_Rpower_l; lra.
Qed.

(** The square root below the root of a bound. *)
Lemma sqrt_le_bound (x b : R) : 0 <= b -> 0 <= x <= b * b -> 0 <= sqrt x <= b.
Proof.
  intros Hb [Hx Hxb]. split; [apply sqrt_pos |].
  rewrite <- (sqrt_square b) by exact Hb. apply sqrt_le_1; nra.
Qed.

Lemma sqrt_of_square (x b : R) : 0 <= b -> x = b * b -> sqrt x = b.
Proof. intros Hb ->. apply sqrt_square. exact Hb. Qed.

End Operators.

(** [max] and [min] on two finite floats are the mathematical ones. *)
Lemma py_max_num a b : py_max (Num a) (Num b) = inr (Num (Rmax a b)).
Proof.
  unfold py_max, py_gt, Num, flt, Rltb, Rmax. simpl.
  destruct (Rlt_dec a b); destruct (Rle_dec a b); try reflexivity; try lra.
  assert (E : a = b) by lra. rewrite E. reflexivity.
Qed.

Lemma py_min_num a b : py_min (Num a) (Num b) = inr (Num (Rmin a b)).
Proof.
  unfold py_min, py_lt, Num, flt, Rltb, Rmin. simpl.
  destruct (Rlt_dec b a); destruct (Rle_dec a b); try reflexivity; try lra.
Qed.

(** ** [innovation_success_curve], branch by branch *)

Section SuccessCurve.

Variable c : R.

Lemma Rabs_sqr_bound (d bound : R) : Rabs d <= bound -> Rabs d * Rabs d <= bound * bound.
Proof.
  intros H. pose proof (Rabs_pos d). nra.
Qed.

Lemma optimal_distance_bound : 2 <= c <= 5 -> Rabs (c - 3.5) <= 1.5.
Proof. intros Hc. apply Rabs_le. lra. Qed.

(** The tail of a clamped branch: the penalty [q], in range, weighted by
    [k <= 1] and taken from [top]. *)
Lemma clamped_branch (top k q : R) :
  0 <= top <= 1 -> 0 <= k <= 1 -> 0 <= q < overflow_threshold ->
  py_max (Num 0) (py_sub (Num top) (py_mul (Num q) (Num k)))
  = inr (Num (Rmax 0 (top - q * k))).
Proof.
  intros Ht Hk Hq. pose proof overflow_threshold_gt_10 as HT.
  assert (Hqk : 0 <= q * k <= q) by nra.
  rewrite py_mul_num by (rewrite Rabs_pos_eq; lra).
  rewrite py_sub_num by (apply Rabs_def1; lra).
  apply py_max_num.
Qed.

Lemma success_curve_underfitting :
  c < 2 -> (2 - c) * (2 - c) < overflow_threshold ->
  innovation_success_curve c
  = inr (Num (Rmax 0 (0.3 - (2 - c) * (2 - c) * 0.15))).
Proof.
  intros Hc Hr. unfold innovation_success_curve.
  destruct (Rlt_dec c 2); [| lra].
  rewrite float_pow_2, checked_in_range by (rewrite Rabs_sqr; exact Hr).
  rewrite bind_inr. apply clamped_branch; try lra.
  pose proof (Rle_0_sqr (2 - c)) as H. unfold Rsqr in H. lra.
Qed.

Lemma success_curve_underfitting_overflow :
  c < 2 -> overflow_threshold <= (2 - c) * (2 - c) ->
  innovation_success_curve c = inl OverflowError.
Proof.
  intros Hc Hr. unfold innovation_success_curve.
  destruct (Rlt_dec c 2); [| lra].
  rewrite float_pow_2, checked_overflow by (rewrite Rabs_sqr; exact Hr).
  reflexivity.
Qed.

Lemma success_curve_overfitting :
  5 < c -> (c - 5) * (c - 5) < overflow_threshold ->
  innovation_success_curve c
  = inr (Num (Rmax 0 (0.2 - (c - 5) * (c - 5) * 0.05))).
Proof.
  intros Hc Hr. unfold innovation_success_curve.
  destruct (Rlt_dec c 2); [lra |].
  destruct (Rgt_dec c 5); [| lra].
  rewrite float_pow_2, checked_in_range by (rewrite Rabs_sqr; exact Hr).
  rewrite bind_inr. apply clamped_branch; try lra.
  pose proof (Rle_0_sqr (c - 5)) as H. unfold Rsqr in H. lra.
Qed.

Lemma success_curve_overfitting_overflow :
  5 < c -> overflow_threshold <= (c - 5) * (c - 5) ->
  innovation_success_curve c = inl OverflowError.
Proof.
  intros Hc Hr. unfold innovation_success_curve.
  destruct (Rlt_dec c 2); [lra |].
  destruct (Rgt_dec c 5); [| lra].
  rewrite float_pow_2, checked_overflow by (rewrite Rabs_sqr; exact Hr).
  reflexivity.
Qed.

Lemma success_curve_optimal :
  2 <= c <= 5 ->
  innovation_success_curve c
  = inr (Num (0.9 - Rabs (c - 3.5) * Rabs (c - 3.5) * 0.1)).
Proof.
  intros Hc. unfold innovation_success_curve.
  destruct (Rlt_dec c 2); [lra |].
  destruct (Rgt_dec c 5); [lra |].
  cbv zeta.
  pose proof overflow_threshold_gt_10 as HT.
  pose proof (Rabs_sqr_bound _ _ (optimal_distance_bound Hc)) as Hsq.
  pose proof (Rabs_pos (c - 3.5)) as Hpos.
  assert (H0 : 0 <= Rabs (c - 3.5) * Rabs (c - 3.5)) by (apply Rmult_le_pos; assumption).
  rewrite float_pow_2, checked_in_range by (rewrite Rabs_sqr; lra).
  rewrite bind_inr.
  rewrite py_mul_num by (apply Rabs_def1; lra).
  rewrite py_sub_num by (apply Rabs_def1; lra).
  reflexivity.
Qed.

(** Inputs up to 10^154 in magnitude keep both penalties in range. *)
Lemma penalties_in_range :
  Rabs c <= 1e154 ->
  (2 - c) * (2 - c) < overflow_threshold /\ (c - 5) * (c - 5) < overflow_threshold.
Proof.
  intros Hc. apply Rabs_le_bounds in Hc.
  pose proof overflow_threshold_large as HT.
  assert (H2 : Rabs (2 - c) <= 1e154 + 5) by (apply Rabs_le; lra).
  assert (H5 : Rabs (c - 5) <= 1e154 + 5) by (apply Rabs_le; lra).
  apply Rabs_sqr_bound in H2. apply Rabs_sqr_bound in H5.
  rewrite Rabs_mul_self in H2, H5.
  eval_IZR. lra.
Qed.

(** Inputs from 10^155 on in magnitude push the penalty out of range. *)
Lemma penalties_out_of_range :
  1e155 <= Rabs c ->
  (c < 2 /\ overflow_threshold <= (2 - c) * (2 - c))
  \/ (5 < c /\ overflow_threshold <= (c - 5) * (c - 5)).
Proof.
  intros Hc. unfold overflow_threshold.
  unfold Rabs in Hc. destruct (Rcase_abs c) as [Hneg | Hpos].
  - left. split; [lra |].
    assert (H : 1e155 * 1e155 <= (2 - c) * (2 - c)).
    { apply Rmult_le_compat; eval_IZR; lra. }
    eval_IZR. lra.
  - right. assert (H5 : 1e155 - 5 <= c - 5) by lra.
    split; [eval_IZR; lra |].
    assert (H : (1e155 - 5) * (1e155 - 5) <= (c - 5) * (c - 5)).
    { apply Rmult_le_compat; eval_IZR; lra. }
    eval_IZR. lra.
Qed.

(** In range, the call returns the value of the specification. *)
Lemma success_curve_value :
  Rabs c <= 1e154 ->
  innovation_success_curve c = inr (Num (Spec.SuccessCurve c)).
Proof.
  intros Hc. destruct (penalties_in_range Hc) as [H2 H5].
  unfold Spec.SuccessCurve.
  destruct (Rlt_dec c 2) as [Hlow | Hlow].
  - rewrite success_curve_underfitting by assumption.
    do 3 f_equal. ring.
  - destruct (Rle_dec c 5) as [Hmid | Hhigh].
    + rewrite success_curve_optimal by lra.
      do 2 f_equal. ring.
    + rewrite success_curve_overfitting by (assumption || lra).
      do 3 f_equal. ring.
Qed.

(** Whatever the input, a call that returns returns that value. *)
Lemma success_curve_returned (v : value) :
  innovation_success_curve c = inr v -> v = Num (Spec.SuccessCurve c).
Proof.
  intros Hv.
  assert (E : innovation_success_curve c = inr (Num (Spec.SuccessCurve c))).
  { unfold Spec.SuccessCurve.
    destruct (Rlt_dec c 2) as [Hlow | Hlow].
    - destruct (Rlt_dec ((2 - c) * (2 - c)) overflow_threshold) as [Hr | Hr].
      + rewrite success_curve_underfitting by assumption. do 3 f_equal. ring.
      + rewrite success_curve_underfitting_overflow in Hv by lra. discriminate Hv.
    - destruct (Rle_dec c 5) as [Hmid | Hhigh].
      + rewrite success_curve_optimal by lra. do 2 f_equal. ring.
      + destruct (Rlt_dec ((c - 5) * (c - 5)) overflow_threshold) as [Hr | Hr].
        * rewrite success_curve_overfitting by lra. do 3 f_equal. ring.
        * rewrite success_curve_overfitting_overflow in Hv by lra. discriminate Hv. }
  rewrite E in Hv. injection Hv as Hv. symmetry. exact Hv.
Qed.

(** The value of the specification, region by region. *)
Lemma SuccessCurve_under : c < 2 -> 0 <= Spec.SuccessCurve c <= 0.3.
Proof.
  intros Hc. unfold Spec.SuccessCurve. destruct (Rlt_dec c 2); [| lra].
  pose proof (Rle_0_sqr (2 - c)) as H. unfold Rsqr in H.
  split; [apply Rmax_l | apply Rmax_lub; simpl; lra].
Qed.

Lemma SuccessCurve_over : 5 < c -> 0 <= Spec.SuccessCurve c <= 0.2.
Proof.
  intros Hc. unfold Spec.SuccessCurve. destruct (Rlt_dec c 2); [lra |].
  destruct (Rle_dec c 5); [lra |].
  pose proof (Rle_0_sqr (c - 5)) as H. unfold Rsqr in H.
  split; [apply Rmax_l | apply Rmax_lub; simpl; lra].
Qed.

Lemma SuccessCurve_optimal :
  2 <= c <= 5 ->
  Spec.SuccessCurve c = 0.9 - (c - 3.5) * (c - 3.5) * 0.1
  /\ 0.675 <= Spec.SuccessCurve c <= 0.9.
Proof.
  intros Hc. unfold Spec.SuccessCurve. destruct (Rlt_dec c 2); [lra |].
  destruct (Rle_dec c 5); [| lra].
  pose proof (Rabs_sqr_bound _ _ (optimal_distance_bound Hc)) as Hsq.
  rewrite Rabs_mul_self in Hsq.
  pose proof (Rle_0_sqr (c - 3.5)) as Hpos. unfold Rsqr in Hpos.
  assert (E : Rabs (c - 3.5) ^ 2 = (c - 3.5) * (c - 3.5)).
  { simpl. rewrite Rmult_1_r. apply Rabs_mul_self. }
  rewrite E. split; [reflexivity | lra].
Qed.

Lemma SuccessCurve_bounded : 0 <= Spec.SuccessCurve c <= 0.9.
Proof.
  destruct (Rlt_dec c 2) as [Hlow | Hlow].
  - pose proof (SuccessCurve_under Hlow). lra.
  - destruct (Rlt_dec 5 c) as [Hhigh | Hhigh].
    + pose proof (SuccessCurve_over Hhigh). lra.
    + destruct (SuccessCurve_optimal ltac:(lra)). lra.
Qed.

End SuccessCurve.

(** Comparisons with the threshold, on constants. *)
Ltac in_range :=
  pose proof overflow_threshold_large; eval_IZR; lra.

Lemma SuccessCurve_under_eq (c : R) :
  c < 2 -> Spec.SuccessCurve c = Rmax 0 (0.3 - (2 - c) * (2 - c) * 0.15).
Proof.
  intros Hc. unfold Spec.SuccessCurve. destruct (Rlt_dec c 2); [| lra].
  f_equal. ring.
Qed.

Lemma SuccessCurve_over_eq (c : R) :
  5 < c -> Spec.SuccessCurve c = Rmax 0 (0.2 - (c - 5) * (c - 5) * 0.05).
Proof.
  intros Hc. unfold Spec.SuccessCurve. destruct (Rlt_dec c 2); [lra |].
  destruct (Rle_dec c 5); [lra |].
  f_equal. ring.
Qed.

(** ** The script's own examples

    The demonstration block calls the curve on 3 (printed as 0.88); the
    specification lists the floors at 0 and 10 and the saturation of the
    gospel value at (1, 1, 1). *)

Example spray_on_dress : innovation_success_curve 3 = inr (Num 0.875).
Proof.
  rewrite success_curve_optimal by lra.
  assert (E : Rabs (3 - 3.5) = 0.5).
  { unfold Rabs. destruct (Rcase_abs (3 - 3.5)); lra. }
  rewrite E. do 2 f_equal. lra.
Qed.

Example underfitting_floor : innovation_success_curve 0 = inr (Num 0).
Proof.
  rewrite success_curve_underfitting by in_range.
  do 2 f_equal. apply Rmax_left. lra.
Qed.

Example overfitting_floor : innovation_success_curve 10 = inr (Num 0).
Proof.
  rewrite success_curve_overfitting by in_range.
  do 2 f_equal. apply Rmax_left. lra.
Qed.

(** In binary64 the same calls give the floats nearest to 0.9, 0.675 and
    0.875, and an input as large as 10^200 overflows the square. *)
Example binary64_reference_values :
  Binary64.innovation_success_curve 3.5%float = inr 0.9%float
  /\ Binary64.innovation_success_curve 2%float = inr 0.675%float
  /\ Binary64.innovation_success_curve 3%float = inr 0.875%float
  /\ Binary64.innovation_success_curve 1e200%float = inl OverflowError.
Proof. repeat split; vm_compute; reflexivity. Qed.

(** C1, as stated, fails: on 10^200 the square of the distance to 5 does
    not fit a float, [**] raises [OverflowError] and the call returns
    nothing, where the specification gives 0. *)
Lemma success_curve_overflow_at_1e200 :
  innovation_success_curve 1e200 = inl OverflowError
  /\ innovation_success_curve 1e200 <> inr (Num (Spec.SuccessCurve 1e200)).
Proof.
  assert (E : innovation_success_curve 1e200 = inl OverflowError).
  { apply success_curve_overfitting_overflow; unfold overflow_threshold; eval_IZR; lra. }
  split; [exact E | rewrite E; discriminate].
Qed.

(** C1, amended. For every [constraint_complexity] of magnitude at most
    10^154 the function returns, without raising, the three-region value
    of the specification: region A below 2, region B on [2, 5], region C
    above 5. *)
Theorem success_curve_piecewise (constraint_complexity : R) :
  Rabs constraint_complexity <= 1e154 ->
  innovation_success_curve constraint_complexity
  = inr (Num (Spec.SuccessCurve constraint_complexity)).
Proof.
  intros Hc.
  destruct (penalties_in_range constraint_complexity Hc) as [Hunder Hover].
  unfold Spec.SuccessCurve.
  destruct (Rlt_dec constraint_complexity 2) as [Hlow | Hlow].
  - rewrite success_curve_underfitting by assumption.
    do 3 f_equal. ring.
  - destruct (Rle_dec constraint_complexity 5) as [Hmid | Hhigh].
    + rewrite success_curve_optimal by lra.
      do 2 f_equal. ring.
    + rewrite success_curve_overfitting by (assumption || lra).
      do 3 f_equal. ring.
Qed.

Lemma success_curve_piecewise_witness :
  Rabs (-3) <= 1e154
  /\ innovation_success_curve (-3) = inr (Num (Spec.SuccessCurve (-3))).
Proof.
  assert (H : Rabs (-3) <= 1e154) by range.
  split; [exact H | apply (success_curve_piecewise (-3) H)].
Defined.

(** C4, as stated, fails: -10^200 is a real input on which the call has
    no result at all, the square of the distance to 2 being out of the
    floats' range. *)
Lemma success_curve_no_result_at_minus_1e200 :
  innovation_success_curve (-1e200) = inl OverflowError
  /\ ~ (exists x : R,
          innovation_success_curve (-1e200) = inr (Num x) /\ 0 <= x <= 0.9).
Proof.
  assert (E : innovation_success_curve (-1e200) = inl OverflowError).
  { apply success_curve_underfitting_overflow; unfold overflow_threshold; eval_IZR; lra. }
  split; [exact E |].
  intros [x [Hx _]]. rewrite E in Hx. discriminate Hx.
Qed.

(** C4, amended. Whenever the call returns, the result is a finite float
    in [0, 0.9]; it does return for every input of magnitude at most
    10^154, negative or beyond 8 included, and on [2, 5], where no clamp
    is applied, the bound 0.9 holds all the same. *)
Theorem success_curve_bounded (constraint_complexity : R) :
  (forall v : value,
     innovation_success_curve constraint_complexity = inr v ->
     exists x : R, v = Num x /\ 0 <= x <= 0.9)
  /\ (Rabs constraint_complexity <= 1e154 ->
      exists x : R,
        innovation_success_curve constraint_complexity = inr (Num x)
        /\ 0 <= x <= 0.9
        /\ (2 <= constraint_complexity <= 5 ->
            x = 0.9 - Rabs (constraint_complexity - 3.5) ^ 2 * 0.1 /\ x <= 0.9)).
Proof.
  pose proof (SuccessCurve_bounded constraint_complexity) as Hb.
  split.
  - intros v Hv. exists (Spec.SuccessCurve constraint_complexity).
    split; [apply success_curve_returned; exact Hv | exact Hb].
  - intros Hc. exists (Spec.SuccessCurve constraint_complexity).
    split; [apply success_curve_value; exact Hc |].
    split; [exact Hb |].
    intros Hmid. split; [| lra].
    unfold Spec.SuccessCurve.
    destruct (Rlt_dec constraint_complexity 2); [lra |].
    destruct (Rle_dec constraint_complexity 5); [reflexivity | lra].
Qed.

Lemma success_curve_bounded_witness :
  exists x : R,
    innovation_success_curve (-1000) = inr (Num x)
    /\ 0 <= x <= 0.9
    /\ (2 <= -1000 <= 5 ->
        x = 0.9 - Rabs (-1000 - 3.5) ^ 2 * 0.1 /\ x <= 0.9).
Proof.
  apply (proj2 (success_curve_bounded (-1000))). range.
Defined.

(** C8. Reference values inside the optimal zone: 0.9 at 3.5, where the
    distance penalty is zero, and 0.9 - 1.5^2 * 0.1 = 0.675 at 2. *)
Theorem success_curve_reference_values :
  innovation_success_curve 3.5 = inr (Num 0.9)
  /\ innovation_success_curve 2 = inr (Num (0.9 - 1.5 ^ 2 * 0.1))
  /\ innovation_success_curve 2 = inr (Num 0.675).
Proof.
  assert (H35 : Rabs (3.5 - 3.5) = 0).
  { unfold Rabs. destruct (Rcase_abs (3.5 - 3.5)); lra. }
  assert (H2 : Rabs (2 - 3.5) = 1.5).
  { unfold Rabs. destruct (Rcase_abs (2 - 3.5)); lra. }
  repeat split.
  - rewrite success_curve_optimal by lra. rewrite H35. do 2 f_equal. lra.
  - rewrite success_curve_optimal by lra. rewrite H2. do 2 f_equal. lra.
  - rewrite success_curve_optimal by lra. rewrite H2. do 2 f_equal. lra.
Qed.

(** C10. Inside the optimal zone the curve is symmetric about 3.5. *)
Theorem success_curve_symmetric (d : R) :
  0 <= d <= 1.5 ->
  innovation_success_curve (3.5 - d) = innovation_success_curve (3.5 + d).
Proof.
  intros Hd.
  rewrite !success_curve_optimal by lra.
  assert (E : Rabs (3.5 - d - 3.5) = Rabs (3.5 + d - 3.5)).
  { unfold Rabs.
    destruct (Rcase_abs (3.5 - d - 3.5)); destruct (Rcase_abs (3.5 + d - 3.5)); lra. }
  rewrite E. reflexivity.
Qed.

Lemma success_curve_symmetric_witness :
  0 <= 1 <= 1.5
  /\ innovation_success_curve (3.5 - 1) = innovation_success_curve (3.5 + 1).
Proof.
  split; [lra | apply (success_curve_symmetric 1); lra].
Defined.

(** C6, as stated, fails: on the float next below 2 the penalty,
    2^-104 * 0.15, is lost when it is taken from 0.3, and the
    underfitting branch returns 0.3 itself, not less. *)
Lemma success_curve_reaches_0_3_below_2 :
  (1.9999999999999998 <? 2)%float = true
  /\ Binary64.innovation_success_curve 1.9999999999999998%float = inr 0.3%float
  /\ (0.3 <? 0.3)%float = false.
Proof. repeat split; vm_compute; reflexivity. Qed.

(** C6, amended. The curve jumps at the boundary 2: the optimal-zone
    branch owns the boundary and gives 0.675 there, every input below 2
    (of magnitude at most 10^154) gives at most 0.3, so the values differ
    by at least 0.375 however close the input is to 2. *)
Theorem success_curve_jump_at_2 :
  innovation_success_curve 2 = inr (Num 0.675)
  /\ (forall c : R, c < 2 -> Rabs c <= 1e154 ->
        exists x : R,
          innovation_success_curve c = inr (Num x)
          /\ x <= 0.3 /\ 0.375 <= 0.675 - x).
Proof.
  split.
  - rewrite success_curve_optimal by lra.
    assert (H2 : Rabs (2 - 3.5) = 1.5).
    { unfold Rabs. destruct (Rcase_abs (2 - 3.5)); lra. }
    rewrite H2. do 2 f_equal. lra.
  - intros c Hc Hr. exists (Spec.SuccessCurve c).
    split; [apply success_curve_value; exact Hr |].
    pose proof (SuccessCurve_under c Hc). lra.
Qed.

Lemma success_curve_jump_at_2_witness :
  exists x : R,
    innovation_success_curve 1.9 = inr (Num x)
    /\ x <= 0.3 /\ 0.375 <= 0.675 - x.
Proof.
  apply (proj2 success_curve_jump_at_2 1.9); [lra | range].
Defined.

(** ** [calculate_innovation_gospel_value] on and off its domain *)

(** The two fractional powers of a base up to 10^50. *)
Lemma rpow_1_5_bound (x : R) :
  0 <= x <= 1e50 -> 0 <= Spec.rpow x 1.5 <= 1e75.
Proof.
  intros Hx. rewrite rpow_three_halves by lra.
  destruct (sqrt_le_bound x 1e25) as [Hs0 Hs1]; [eval_IZR; lra | eval_IZR; lra |].
  assert (H : x * sqrt x <= 1e50 * 1e25) by (apply Rmult_le_compat; lra).
  split; [apply Rmult_le_pos; lra | eval_IZR; lra].
Qed.

Lemma rpow_0_5_bound (x : R) :
  0 <= x <= 1e50 -> 0 <= Spec.rpow x 0.5 <= 1e25.
Proof.
  intros Hx. rewrite rpow_half by lra.
  apply sqrt_le_bound; eval_IZR; lra.
Qed.

Lemma square_bound (x : R) : Rabs x <= 1e50 -> 0 <= x * x <= 1e100.
Proof.
  intros Hx. apply Rabs_sqr_bound in Hx. rewrite Rabs_mul_self in Hx.
  pose proof (Rle_0_sqr x) as H0. unfold Rsqr in H0.
  split; [exact H0 | eval_IZR; lra].
Qed.

Section GospelValue.

Variables p c r : R.

(** Non-negative [paradox_strength] and [customer_readiness], and no
    power or product out of range: the three powers are finite floats and
    so is the clamped product. *)
Lemma gospel_value_defined :
  0 <= p < overflow_threshold -> 0 <= r < overflow_threshold ->
  Spec.rpow p 1.5 < overflow_threshold ->
  c * c < overflow_threshold ->
  Spec.rpow r 0.5 < overflow_threshold ->
  Spec.rpow p 1.5 * (c * c) < overflow_threshold ->
  Spec.rpow p 1.5 * (c * c) * Spec.rpow r 0.5 < overflow_threshold ->
  calculate_innovation_gospel_value p c r
  = inr (Num (Rmin 1.0 (Spec.rpow p 1.5 * (c * c) * Spec.rpow r 0.5))).
Proof.
  intros Hp Hr HM HG HA HMG HMGA. unfold calculate_innovation_gospel_value.
  pose proof (rpow_nonneg p 1.5) as HM0. pose proof (rpow_nonneg r 0.5) as HA0.
  pose proof (Rle_0_sqr c) as HG0. unfold Rsqr in HG0.
  rewrite (float_pow_nonneg p 1.5) by (assumption || lra). rewrite bind_inr.
  rewrite float_pow_2, checked_in_range by (rewrite Rabs_sqr; assumption).
  rewrite bind_inr.
  rewrite (float_pow_nonneg r 0.5) by (assumption || lra). rewrite bind_inr.
  cbv zeta.
  rewrite (py_mul_num (Spec.rpow p 1.5) (c * c)).
  - rewrite py_mul_num.
    + apply py_min_num.
    + rewrite Rabs_pos_eq; [exact HMGA |].
      apply Rmult_le_pos; [apply Rmult_le_pos |]; assumption.
  - rewrite Rabs_pos_eq; [exact HMG | apply Rmult_le_pos; assumption].
Qed.

(** Inputs up to 10^50 in magnitude keep every power and product in
    range. *)
Lemma gospel_value_in_range :
  0 <= p <= 1e50 -> Rabs c <= 1e50 -> 0 <= r <= 1e50 ->
  calculate_innovation_gospel_value p c r
  = inr (Num (Rmin 1.0 (Spec.rpow p 1.5 * (c * c) * Spec.rpow r 0.5))).
Proof.
  intros Hp Hc Hr.
  pose proof (rpow_1_5_bound p Hp) as [HM0 HM].
  pose proof (square_bound c Hc) as [HG0 HG].
  pose proof (rpow_0_5_bound r Hr) as [HA0 HA].
  pose proof overflow_threshold_large as HT.
  assert (HMG : Spec.rpow p 1.5 * (c * c) <= 1e75 * 1e100).
  { apply Rmult_le_compat; assumption. }
  assert (HMGA : Spec.rpow p 1.5 * (c * c) * Spec.rpow r 0.5 <= 1e75 * 1e100 * 1e25).
  { apply Rmult_le_compat; try assumption. apply Rmult_le_pos; assumption. }
  apply gospel_value_defined; eval_IZR; lra.
Qed.

(** A negative [paradox_strength] or [customer_readiness] up to 10^50 in
    magnitude: its power is complex, so is the product, and [min] cannot
    order it. *)
Lemma gospel_value_raises :
  Rabs p <= 1e50 -> Rabs c <= 1e50 -> Rabs r <= 1e50 ->
  p < 0 \/ r < 0 ->
  calculate_innovation_gospel_value p c r = inl TypeError.
Proof.
  intros Hpa Hc Hra Hneg.
  pose proof (Rabs_le_bounds _ _ Hpa) as Hp.
  pose proof (Rabs_le_bounds _ _ Hra) as Hr.
  pose proof (square_bound c Hc) as [HG0 HG].
  pose proof overflow_threshold_large as HT.
  assert (HGT : c * c < overflow_threshold) by (eval_IZR; lra).
  unfold calculate_innovation_gospel_value.
  destruct (Rlt_dec p 0) as [Hp0 | Hp0].
  - pose proof (rpow_1_5_bound (- p) ltac:(lra)) as [_ HM].
    rewrite (float_pow_neg_frac p 1.5) by (exact is_integral_1_5 || (eval_IZR; lra)).
    rewrite bind_inr.
    rewrite float_pow_2, checked_in_range by (rewrite Rabs_sqr; exact HGT).
    rewrite bind_inr.
    destruct (Rlt_dec r 0) as [Hr0 | Hr0].
    + pose proof (rpow_0_5_bound (- r) ltac:(lra)) as [_ HA].
      rewrite (float_pow_neg_frac r 0.5) by (exact is_integral_0_5 || (eval_IZR; lra)).
      reflexivity.
    + pose proof (rpow_0_5_bound r ltac:(lra)) as [_ HA].
      rewrite (float_pow_nonneg r 0.5) by (eval_IZR; lra).
      reflexivity.
  - assert (Hr0 : r < 0) by (destruct Hneg; [contradiction | assumption]).
    pose proof (rpow_1_5_bound p ltac:(lra)) as [_ HM].
    pose proof (rpow_0_5_bound (- r) ltac:(lra)) as [_ HA].
    rewrite (float_pow_nonneg p 1.5) by (eval_IZR; lra).
    rewrite bind_inr.
    rewrite float_pow_2, checked_in_range by (rewrite Rabs_sqr; exact HGT).
    rewrite bind_inr.
    rewrite (float_pow_neg_frac r 0.5) by (exact is_integral_0_5 || (eval_IZR; lra)).
    reflexivity.
Qed.

Lemma gospel_product_nonneg :
  0 <= Spec.rpow p 1.5 * (c * c) * Spec.rpow r 0.5.
Proof.
  pose proof (rpow_nonneg p 1.5). pose proof (rpow_nonneg r 0.5).
  assert (0 <= c * c) by nra.
  apply Rmult_le_pos; [apply Rmult_le_pos |]; assumption.
Qed.

(** Whatever the size of the inputs, a call on non-negative
    [paradox_strength] and [customer_readiness] that returns returns a
    finite float in [0, 1]: an infinite product, or the NaN of an infinite
    product times zero, leaves [min] with its first argument, 1.0. *)
Lemma gospel_value_returned (v : value) :
  0 <= p -> 0 <= r ->
  calculate_innovation_gospel_value p c r = inr v ->
  exists x : R, v = Num x /\ 0 <= x <= 1.0.
Proof.
  intros Hp Hr Hv. unfold calculate_innovation_gospel_value in Hv.
  pose proof (rpow_nonneg p 1.5) as HM0. pose proof (rpow_nonneg r 0.5) as HA0.
  pose proof (Rle_0_sqr c) as HG0. unfold Rsqr in HG0.
  assert (HMG0 : 0 <= Spec.rpow p 1.5 * (c * c)) by (apply Rmult_le_pos; assumption).
  assert (HMGA0 : 0 <= Spec.rpow p 1.5 * (c * c) * Spec.rpow r 0.5)
    by (apply Rmult_le_pos; assumption).
  rewrite float_pow_2 in Hv.
  destruct (float_pow_nonneg_cases p 1.5) as [E | E]; try lra; rewrite E in Hv;
    [rewrite bind_inl in Hv; discriminate Hv | rewrite bind_inr in Hv].
  destruct (checked_cases (c * c)) as [E' | E']; rewrite E' in Hv;
    [rewrite bind_inl in Hv; discriminate Hv | rewrite bind_inr in Hv].
  destruct (float_pow_nonneg_cases r 0.5) as [E'' | E'']; try lra; rewrite E'' in Hv;
    [rewrite bind_inl in Hv; discriminate Hv | rewrite bind_inr in Hv].
  cbv zeta in Hv.
  unfold py_min, py_lt, py_mul, Num, fmul, of_exact, flt, Rltb in Hv.
  destruct (overflows (Spec.rpow p 1.5 * (c * c))).
  - destruct (Rlt_dec (Spec.rpow p 1.5 * (c * c)) 0); [lra |].
    destruct (Req_dec_T (Spec.rpow r 0.5) 0).
    + simpl in Hv. injection Hv as Hv. exists 1.0. split; [symmetry; exact Hv | lra].
    + destruct (Rlt_dec (Spec.rpow r 0.5) 0); [lra |].
      simpl in Hv. injection Hv as Hv. exists 1.0. split; [symmetry; exact Hv | lra].
  - destruct (overflows (Spec.rpow p 1.5 * (c * c) * Spec.rpow r 0.5)).
    + destruct (Rlt_dec (Spec.rpow p 1.5 * (c * c) * Spec.rpow r 0.5) 0); [lra |].
      simpl in Hv. injection Hv as Hv. exists 1.0. split; [symmetry; exact Hv | lra].
    + simpl in Hv.
      destruct (Rlt_dec (Spec.rpow p 1.5 * (c * c) * Spec.rpow r 0.5) 1.0).
      * injection Hv as Hv. eexists. split; [symmetry; exact Hv | lra].
      * injection Hv as Hv. exists 1.0. split; [symmetry; exact Hv | lra].
Qed.

End GospelValue.

Example gospel_saturation :
  calculate_innovation_gospel_value 1 1 1 = inr (Num 1).
Proof.
  rewrite gospel_value_in_range by range.
  rewrite rpow_three_halves, rpow_half by lra.
  rewrite sqrt_1. do 2 f_equal.
  unfold Rmin. destruct (Rle_dec 1.0 (1 * 1 * (1 * 1) * 1)); lra.
Qed.

(** A square out of range: the call stops at the second power. *)
Lemma gospel_value_square_overflow (p c r : R) :
  0 <= p <= 1e50 -> 1e155 <= Rabs c ->
  calculate_innovation_gospel_value p c r = inl OverflowError.
Proof.
  intros Hp Hc. unfold calculate_innovation_gospel_value.
  pose proof (rpow_1_5_bound p Hp) as [_ HM].
  pose proof overflow_threshold_large as HT.
  rewrite (float_pow_nonneg p 1.5) by (eval_IZR; lra).
  rewrite bind_inr.
  rewrite float_pow_2, checked_overflow; [reflexivity |].
  rewrite Rabs_sqr, <- Rabs_mul_self.
  assert (H : 1e155 * 1e155 <= Rabs c * Rabs c).
  { apply Rmult_le_compat; eval_IZR; lra. }
  unfold overflow_threshold. eval_IZR. lra.
Qed.

(** A first power out of range: the call stops there, whatever the
    other two inputs. *)
Lemma gospel_value_first_power_overflow (p c r : R) :
  1e210 <= p ->
  calculate_innovation_gospel_value p c r = inl OverflowError.
Proof.
  intros Hp. unfold calculate_innovation_gospel_value.
  rewrite (float_pow_nonneg_overflow p 1.5); [reflexivity | lra | eval_IZR; lra |].
  rewrite rpow_three_halves by (eval_IZR; lra).
  assert (Hs : 1e105 <= sqrt p).
  { rewrite <- (sqrt_square 1e105) by (eval_IZR; lra).
    apply sqrt_le_1_alt. eval_IZR. lra. }
  assert (H : 1e210 * 1e105 <= p * sqrt p).
  { apply Rmult_le_compat; eval_IZR; lra. }
  unfold overflow_threshold. eval_IZR. lra.
Qed.

(** C2, as stated, fails: on (10^134, 10^100, 0) the call returns 1.0
    where the formula gives 0.  The product of the first two powers,
    10^401, is an infinite float; times the third power, 0.0, it is NaN,
    and [min(1.0, NaN)] keeps 1.0. *)
Lemma gospel_value_nan_keeps_1 :
  calculate_innovation_gospel_value 1e134 1e100 0 = inr (Num 1.0)
  /\ Spec.GospelValue 1e134 1e100 0 = 0.
Proof.
  pose proof overflow_threshold_large as HT.
  assert (HM : Spec.rpow 1e134 1.5 = 1e201).
  { rewrite rpow_three_halves by (eval_IZR; lra).
    rewrite (sqrt_of_square 1e134 1e67) by (eval_IZR; lra).
    eval_IZR. lra. }
  assert (HA : Spec.rpow 0 0.5 = 0).
  { unfold Spec.rpow. destruct (Req_dec_T 0 0); [reflexivity | lra]. }
  split.
  - unfold calculate_innovation_gospel_value.
    rewrite (float_pow_nonneg 1e134 1.5) by (try rewrite HM; eval_IZR; lra).
    rewrite bind_inr.
    rewrite float_pow_2, checked_in_range by (rewrite Rabs_sqr; eval_IZR; lra).
    rewrite bind_inr.
    rewrite (float_pow_nonneg 0 0.5) by (try rewrite HA; lra).
    rewrite bind_inr. cbv zeta. rewrite HM, HA.
    unfold py_min, py_lt, py_mul, Num, fmul, of_exact.
    rewrite overflows_true.
    + unfold Rltb. destruct (Rlt_dec (1e201 * (1e100 * 1e100)) 0) as [H | _].
      * exfalso. revert H. eval_IZR. lra.
      * destruct (Req_dec_T 0 0); [reflexivity | lra].
    + rewrite Rabs_pos_eq; unfold overflow_threshold; eval_IZR; lra.
  - unfold Spec.GospelValue. cbv zeta. rewrite HA.
    rewrite Rmult_0_r. unfold Rmin. destruct (Rle_dec 1.0 0); lra.
Qed.

(** C2, amended. On every non-negative [paradox_strength] and
    [customer_readiness] and every [peer_credibility], all of magnitude
    at most 10^50, the function returns
    min(1.0, paradox_strength^1.5 * peer_credibility^2 * customer_readiness^0.5). *)
Theorem gospel_value_formula (paradox_strength peer_credibility customer_readiness : R) :
  0 <= paradox_strength <= 1e50 ->
  Rabs peer_credibility <= 1e50 ->
  0 <= customer_readiness <= 1e50 ->
  calculate_innovation_gospel_value paradox_strength peer_credibility customer_readiness
  = inr (Num (Spec.GospelValue paradox_strength peer_credibility customer_readiness)).
Proof.
  intros Hp Hc Hr. rewrite gospel_value_in_range by assumption.
  unfold Spec.GospelValue. do 3 f_equal. ring.
Qed.

Lemma gospel_value_formula_witness :
  calculate_innovation_gospel_value 0.8 0.9 0.7
  = inr (Num (Spec.GospelValue 0.8 0.9 0.7)).
Proof.
  apply (gospel_value_formula 0.8 0.9 0.7); range.
Defined.

(** C3, as stated, fails: on (-0.1, 0.5, 0.5) the fractional power of the
    negative base raises nothing, it is a complex number, and the exception
    the call ends with is not a domain error ([ValueError]). *)
Lemma gospel_value_no_domain_error :
  float_pow (-0.1) 1.5 = inr (neg_base_pow (-0.1) 1.5)
  /\ ~ (calculate_innovation_gospel_value (-0.1) 0.5 0.5 = inl ValueError).
Proof.
  split.
  - pose proof (rpow_1_5_bound (- -0.1) ltac:(eval_IZR; lra)).
    apply float_pow_neg_frac; [in_range | lra | exact is_integral_1_5 | in_range].
  - rewrite gospel_value_raises by (range || (left; lra)). discriminate.
Qed.

(** C3, amended. On inputs of magnitude at most 10^50 the call fails
    exactly when [paradox_strength] or [customer_readiness] is negative,
    in particular on (-0.1, 0.5, 0.5): the fractional power of the
    negative base is a complex number and the final [min] raises
    [TypeError] on it.  Nothing in the function catches the exception,
    and no other input of that size raises any exception.  Beyond that
    size a power can be out of the floats' range, and [**] raises
    [OverflowError], as the first power does on (10^300, 1, -1). *)
Theorem gospel_value_type_error (paradox_strength peer_credibility customer_readiness : R) :
  Rabs paradox_strength <= 1e50 ->
  Rabs peer_credibility <= 1e50 ->
  Rabs customer_readiness <= 1e50 ->
  (calculate_innovation_gospel_value paradox_strength peer_credibility customer_readiness
   = inl TypeError
   <-> paradox_strength < 0 \/ customer_readiness < 0)
  /\ ((exists e : exn,
         calculate_innovation_gospel_value paradox_strength peer_credibility customer_readiness
         = inl e)
      <-> paradox_strength < 0 \/ customer_readiness < 0)
  /\ calculate_innovation_gospel_value (-0.1) 0.5 0.5 = inl TypeError
  /\ calculate_innovation_gospel_value 1e300 1 (-1) = inl OverflowError.
Proof.
  intros Hp Hc Hr.
  assert (Hdom : forall e : exn,
            calculate_innovation_gospel_value paradox_strength peer_credibility customer_readiness
            = inl e ->
            paradox_strength < 0 \/ customer_readiness < 0).
  { intros e He.
    destruct (Rlt_dec paradox_strength 0) as [Hp0 | Hp0]; [left; exact Hp0 |].
    destruct (Rlt_dec customer_readiness 0) as [Hr0 | Hr0]; [right; exact Hr0 |].
    pose proof (Rabs_le_bounds _ _ Hp). pose proof (Rabs_le_bounds _ _ Hr).
    rewrite gospel_value_in_range in He by (assumption || lra). discriminate He. }
  split; [| split; [| split]].
  - split; [apply Hdom | apply gospel_value_raises; assumption].
  - split.
    + intros [e He]. exact (Hdom e He).
    + intros Hneg. exists TypeError. apply gospel_value_raises; assumption.
  - apply gospel_value_raises; range || (left; lra).
  - apply gospel_value_first_power_overflow. eval_IZR. lra.
Qed.

Lemma gospel_value_type_error_witness :
  (calculate_innovation_gospel_value (-0.1) 0.5 0.5 = inl TypeError
   <-> -0.1 < 0 \/ 0.5 < 0)
  /\ ((exists e : exn, calculate_innovation_gospel_value (-0.1) 0.5 0.5 = inl e)
      <-> -0.1 < 0 \/ 0.5 < 0)
  /\ calculate_innovation_gospel_value (-0.1) 0.5 0.5 = inl TypeError
  /\ calculate_innovation_gospel_value 1e300 1 (-1) = inl OverflowError.
Proof.
  apply (gospel_value_type_error (-0.1) 0.5 0.5); range.
Defined.

(** C5, as stated, fails: (1, 10^200, 1) has a non-negative
    [paradox_strength] and [customer_readiness], yet the call has no
    result there: the square of [peer_credibility] is out of the floats'
    range and [**] raises [OverflowError]. *)
Lemma gospel_value_overflow_on_domain :
  0 <= 1 /\ 0 <= 1
  /\ calculate_innovation_gospel_value 1 1e200 1 = inl OverflowError
  /\ ~ (exists x : R,
          calculate_innovation_gospel_value 1 1e200 1 = inr (Num x)
          /\ 0 <= x <= 1.0).
Proof.
  assert (E : calculate_innovation_gospel_value 1 1e200 1 = inl OverflowError).
  { apply gospel_value_square_overflow; [range | rewrite Rabs_pos_eq; eval_IZR; lra]. }
  split; [lra |]. split; [lra |]. split; [exact E |].
  intros [x [Hx _]]. rewrite E in Hx. discriminate Hx.
Qed.

(** C5, amended. On non-negative [paradox_strength] and
    [customer_readiness], whatever the sign of [peer_credibility], a call
    that returns returns a finite float in [0, 1.0]; the call does return
    when the three inputs are at most 10^50 in magnitude. *)
Theorem gospel_value_bounded (paradox_strength peer_credibility customer_readiness : R) :
  0 <= paradox_strength -> 0 <= customer_readiness ->
  (forall v : value,
     calculate_innovation_gospel_value paradox_strength peer_credibility customer_readiness
     = inr v ->
     exists x : R, v = Num x /\ 0 <= x <= 1.0)
  /\ (paradox_strength <= 1e50 -> Rabs peer_credibility <= 1e50 ->
      customer_readiness <= 1e50 ->
      exists x : R,
        calculate_innovation_gospel_value paradox_strength peer_credibility customer_readiness
        = inr (Num x)
        /\ 0 <= x <= 1.0).
Proof.
  intros Hp Hr. split.
  - intros v Hv. exact (gospel_value_returned _ _ _ v Hp Hr Hv).
  - intros Hp' Hc Hr'. eexists.
    split; [apply gospel_value_in_range; (assumption || lra) |].
    pose proof (gospel_product_nonneg paradox_strength peer_credibility customer_readiness) as Hpos.
    split.
    + apply Rmin_glb; [lra | exact Hpos].
    + apply Rmin_l.
Qed.

Lemma gospel_value_bounded_witness :
  exists x : R,
    calculate_innovation_gospel_value 0.5 (-2) 0.5 = inr (Num x)
    /\ 0 <= x <= 1.0.
Proof.
  apply (proj2 (gospel_value_bounded 0.5 (-2) 0.5 ltac:(lra) ltac:(lra))); range.
Defined.

(** C9, as stated, fails: (1, 1, 1) is below (10^300, 1, 1), the call
    returns 1 on the first and raises [OverflowError] on the second, so
    there are no two results to compare. *)
Lemma gospel_value_monotone_overflow :
  0 <= 1 <= 1e300
  /\ calculate_innovation_gospel_value 1 1 1 = inr (Num 1)
  /\ calculate_innovation_gospel_value 1e300 1 1 = inl OverflowError
  /\ ~ (exists x x' : R,
          calculate_innovation_gospel_value 1 1 1 = inr (Num x)
          /\ calculate_innovation_gospel_value 1e300 1 1 = inr (Num x')
          /\ x <= x').
Proof.
  assert (E : calculate_innovation_gospel_value 1e300 1 1 = inl OverflowError).
  { apply gospel_value_first_power_overflow. eval_IZR. lra. }
  split; [eval_IZR; lra |]. split; [exact gospel_saturation |]. split; [exact E |].
  intros [x [x' [_ [Hx' _]]]]. rewrite E in Hx'. discriminate Hx'.
Qed.

(** C9, amended. Over non-negative inputs up to 10^50 the function is
    non-decreasing in its three arguments. *)
Theorem gospel_value_monotone (p p' c c' r r' : R) :
  0 <= p <= p' -> 0 <= c <= c' -> 0 <= r <= r' ->
  p' <= 1e50 -> c' <= 1e50 -> r' <= 1e50 ->
  exists x x' : R,
    calculate_innovation_gospel_value p c r = inr (Num x)
    /\ calculate_innovation_gospel_value p' c' r' = inr (Num x')
    /\ x <= x'.
Proof.
  intros Hp Hc Hr Hp' Hc' Hr'.
  do 2 eexists.
  split; [apply gospel_value_in_range; (lra || (apply Rabs_le; lra)) |].
  split; [apply gospel_value_in_range; (lra || (apply Rabs_le; lra)) |].
  pose proof (rpow_nonneg p 1.5) as Hp0.
  pose proof (rpow_nonneg r 0.5) as Hr0.
  pose proof (rpow_mono p p' 1.5 ltac:(lra) Hp) as Hpm.
  pose proof (rpow_mono r r' 0.5 ltac:(lra) Hr) as Hrm.
  assert (Hc0 : 0 <= c * c) by nra.
  assert (Hcm : c * c <= c' * c') by nra.
  assert (Hprod : Spec.rpow p 1.5 * (c * c) * Spec.rpow r 0.5
                  <= Spec.rpow p' 1.5 * (c' * c') * Spec.rpow r' 0.5).
  { apply Rmult_le_compat; try assumption.
    - apply Rmult_le_pos; assumption.
    - apply Rmult_le_compat; assumption. }
  apply Rmin_glb.
  - apply Rmin_l.
  - eapply Rle_trans; [apply Rmin_r | exact Hprod].
Qed.

Lemma gospel_value_monotone_witness :
  exists x x' : R,
    calculate_innovation_gospel_value 0.2 0.3 0.4 = inr (Num x)
    /\ calculate_innovation_gospel_value 0.8 0.9 0.7 = inr (Num x')
    /\ x <= x'.
Proof.
  apply (gospel_value_monotone 0.2 0.8 0.3 0.9 0.4 0.7); range.
Defined.

(** ** The reference example *)

Lemma sqrt_between (a lo hi : R) :
  0 <= lo -> 0 <= hi -> lo * lo < a -> a < hi * hi -> lo < sqrt a < hi.
Proof.
  intros Hlo Hhi Hlow Hhigh.
  assert (Ha : 0 <= a) by nra.
  pose proof (sqrt_lt_1 (lo * lo) a ltac:(nra) Ha Hlow) as H1.
  pose proof (sqrt_lt_1 a (hi * hi) Ha ltac:(nra) Hhigh) as H2.
  rewrite sqrt_square in H1 by assumption.
  rewrite sqrt_square in H2 by assumption.
  split; assumption.
Qed.

(** 0.8^1.5 * 0.9^2 * 0.7^0.5 = 0.648 * sqrt 0.8 * sqrt 0.7 = 0.4849... *)
Lemma gospel_reference_value :
  0.4848 < Spec.GospelValue 0.8 0.9 0.7 < 0.4850.
Proof.
  unfold Spec.GospelValue. cbv zeta.
  rewrite rpow_three_halves, rpow_half by lra.
  destruct (sqrt_between 0.8 0.8944 0.8945) as [Ha1 Ha2]; try lra.
  destruct (sqrt_between 0.7 0.8366 0.8367) as [Hb1 Hb2]; try lra.
  assert (Hlo : 0.8944 * 0.8366 < sqrt 0.8 * sqrt 0.7) by nra.
  assert (Hhi : sqrt 0.8 * sqrt 0.7 < 0.8945 * 0.8367) by nra.
  assert (E : 0.8 * sqrt 0.8 * 0.9 ^ 2 * sqrt 0.7 = 0.648 * (sqrt 0.8 * sqrt 0.7)) by nra.
  rewrite E.
  unfold Rmin.
  destruct (Rle_dec 1.0 (0.648 * (sqrt 0.8 * sqrt 0.7))); lra.
Qed.

Lemma gospel_reference_call :
  calculate_innovation_gospel_value 0.8 0.9 0.7
  = inr (Num (Spec.GospelValue 0.8 0.9 0.7)).
Proof.
  rewrite gospel_value_in_range by range.
  unfold Spec.GospelValue. do 3 f_equal. ring.
Qed.

(** C7, as stated, fails: the value of the call on (0.8, 0.9, 0.7) is the
    spec's formula, but it is not approximately 0.44: it is more than 0.04
    away from it. *)
Lemma gospel_reference_not_0_44 :
  ~ (exists x : R,
       calculate_innovation_gospel_value 0.8 0.9 0.7 = inr (Num x)
       /\ x = Spec.GospelValue 0.8 0.9 0.7
       /\ Spec.approx 0.04 x 0.44).
Proof.
  intros [x [_ [Hx Happrox]]].
  pose proof gospel_reference_value as Hb.
  rewrite <- Hx in Hb.
  unfold Spec.approx, Rabs in Happrox.
  destruct (Rcase_abs (x - 0.44)); lra.
Qed.

(** C7, amended. The call on (0.8, 0.9, 0.7) returns
    min(1.0, 0.8^1.5 * 0.9^2 * 0.7^0.5), which lies between 0.4848 and
    0.4850: approximately 0.48, the two decimals the script prints. *)
Theorem gospel_reference_example :
  exists x : R,
    calculate_innovation_gospel_value 0.8 0.9 0.7 = inr (Num x)
    /\ x = Spec.GospelValue 0.8 0.9 0.7
    /\ 0.4848 < x < 0.4850
    /\ Spec.approx 0.005 x 0.48.
Proof.
  exists (Spec.GospelValue 0.8 0.9 0.7).
  pose proof gospel_reference_value as Hb.
  split; [| split; [reflexivity | split; [exact Hb |]]].
  - exact gospel_reference_call.
  - unfold Spec.approx, Rabs.
    destruct (Rcase_abs (Spec.GospelValue 0.8 0.9 0.7 - 0.48)); lra.
Qed.

(** * Further properties of the two functions *)

(** ** The shape of the curve *)

Lemma Rmax_0_mono (a b : R) : a <= b -> Rmax 0 a <= Rmax 0 b.
Proof.
  intros Hab. apply Rmax_lub.
  - apply Rmax_l.
  - eapply Rle_trans; [exact Hab | apply Rmax_r].
Qed.

Lemma Rmax_0_eq_0 (a : R) : Rmax 0 a = 0 <-> a <= 0.
Proof.
  unfold Rmax. destruct (Rle_dec 0 a); lra.
Qed.

Lemma sqr_le_sqr (a b : R) : 0 <= a <= b -> a * a <= b * b.
Proof. intros [Ha Hab]. apply Rmult_le_compat; lra. Qed.

(** X2. The clamps of the two outer branches: the curve is 0 on the two
    tails, up to 2 - sqrt 2, where the underfitting penalty reaches 2, and
    from 7 on, where the overfitting penalty reaches 4; it is positive
    from 0.6 to 6.9. *)
Theorem success_curve_zero_tails (c : R) :
  Rabs c <= 1e154 ->
  (c <= 2 - sqrt 2 \/ 7 <= c -> innovation_success_curve c = inr (Num 0))
  /\ (0.6 <= c <= 6.9 ->
      exists x : R, innovation_success_curve c = inr (Num x) /\ 0 < x).
Proof.
  intros Hc.
  assert (Hs : sqrt 2 * sqrt 2 = 2) by (apply sqrt_sqrt; lra).
  assert (Hs0 : 0 < sqrt 2) by (apply sqrt_lt_R0; lra).
  rewrite (success_curve_value c Hc).
  split.
  - intros [H | H]; do 2 f_equal.
    + rewrite SuccessCurve_under_eq by lra.
      apply Rmax_0_eq_0.
      pose proof (sqr_le_sqr (sqrt 2) (2 - c) ltac:(lra)). lra.
    + rewrite SuccessCurve_over_eq by lra.
      apply Rmax_0_eq_0.
      pose proof (sqr_le_sqr 2 (c - 5) ltac:(lra)). lra.
  - intros Hmid. eexists. split; [reflexivity |].
    destruct (Rlt_dec c 2) as [Hlow | Hlow].
    + rewrite SuccessCurve_under_eq by exact Hlow.
      eapply Rlt_le_trans; [| apply Rmax_r].
      pose proof (sqr_le_sqr (2 - c) 1.4 ltac:(lra)). lra.
    + destruct (Rlt_dec 5 c) as [Hhigh | Hhigh].
      * rewrite SuccessCurve_over_eq by exact Hhigh.
        eapply Rlt_le_trans; [| apply Rmax_r].
        pose proof (sqr_le_sqr (c - 5) 1.9 ltac:(lra)). lra.
      * destruct (SuccessCurve_optimal c ltac:(lra)). lra.
Qed.

Lemma success_curve_zero_tails_witness :
  (8 <= 2 - sqrt 2 \/ 7 <= 8 -> innovation_success_curve 8 = inr (Num 0))
  /\ (0.6 <= 8 <= 6.9 ->
      exists x : R, innovation_success_curve 8 = inr (Num x) /\ 0 < x).
Proof.
  apply (success_curve_zero_tails 8). range.
Defined.

(** X3. The curve also jumps at the boundary 5: the optimal-zone branch
    gives 0.675 there, every input above 5 (up to 10^154) gives at most
    0.2, so the values differ by at least 0.475. *)
Theorem success_curve_jump_at_5 :
  innovation_success_curve 5 = inr (Num 0.675)
  /\ (forall c : R, 5 < c -> c <= 1e154 ->
        exists x : R,
          innovation_success_curve c = inr (Num x)
          /\ x <= 0.2 /\ 0.475 <= 0.675 - x).
Proof.
  split.
  - rewrite success_curve_optimal by lra.
    assert (H5 : Rabs (5 - 3.5) = 1.5).
    { unfold Rabs. destruct (Rcase_abs (5 - 3.5)); lra. }
    rewrite H5. do 2 f_equal. lra.
  - intros c Hc Hr. exists (Spec.SuccessCurve c).
    split; [apply success_curve_value; apply Rabs_le; eval_IZR; lra |].
    pose proof (SuccessCurve_over c Hc). lra.
Qed.

Lemma success_curve_jump_at_5_witness :
  exists x : R,
    innovation_success_curve 5.1 = inr (Num x)
    /\ x <= 0.2 /\ 0.475 <= 0.675 - x.
Proof.
  apply (proj2 success_curve_jump_at_5 5.1); range.
Defined.

(** X4. Over inputs up to 10^154 in magnitude the curve is unimodal: it
    never decreases up to 3.5 (the jump at 2 goes upwards) and never
    increases from 3.5 on (the jump at 5 goes downwards). *)
Theorem success_curve_unimodal (c1 c2 : R) :
  Rabs c1 <= 1e154 -> Rabs c2 <= 1e154 ->
  c1 <= c2 ->
  exists x1 x2 : R,
    innovation_success_curve c1 = inr (Num x1)
    /\ innovation_success_curve c2 = inr (Num x2)
    /\ (c2 <= 3.5 -> x1 <= x2)
    /\ (3.5 <= c1 -> x2 <= x1).
Proof.
  intros Hr1 Hr2 Hle.
  exists (Spec.SuccessCurve c1), (Spec.SuccessCurve c2).
  split; [apply success_curve_value; exact Hr1 |].
  split; [apply success_curve_value; exact Hr2 |]. split.
  - intros Hup.
    destruct (Rlt_dec c2 2) as [H2 | H2].
    + rewrite !SuccessCurve_under_eq by lra.
      apply Rmax_0_mono.
      pose proof (sqr_le_sqr (2 - c2) (2 - c1) ltac:(lra)). lra.
    + destruct (SuccessCurve_optimal c2 ltac:(lra)) as [E2 Hb2].
      destruct (Rlt_dec c1 2) as [H1 | H1].
      * pose proof (SuccessCurve_under c1 H1). lra.
      * destruct (SuccessCurve_optimal c1 ltac:(lra)) as [E1 Hb1].
        rewrite E1, E2.
        pose proof (sqr_le_sqr (3.5 - c2) (3.5 - c1) ltac:(lra)) as Hsq.
        replace ((c1 - 3.5) * (c1 - 3.5)) with ((3.5 - c1) * (3.5 - c1)) by ring.
        replace ((c2 - 3.5) * (c2 - 3.5)) with ((3.5 - c2) * (3.5 - c2)) by ring.
        lra.
  - intros Hdown.
    destruct (Rlt_dec 5 c1) as [H1 | H1].
    + rewrite !SuccessCurve_over_eq by lra.
      apply Rmax_0_mono.
      pose proof (sqr_le_sqr (c1 - 5) (c2 - 5) ltac:(lra)). lra.
    + destruct (SuccessCurve_optimal c1 ltac:(lra)) as [E1 Hb1].
      destruct (Rlt_dec 5 c2) as [H2 | H2].
      * pose proof (SuccessCurve_over c2 H2). lra.
      * destruct (SuccessCurve_optimal c2 ltac:(lra)) as [E2 Hb2].
        rewrite E1, E2.
        pose proof (sqr_le_sqr (c1 - 3.5) (c2 - 3.5) ltac:(lra)) as Hsq.
        lra.
Qed.

Lemma success_curve_unimodal_witness :
  exists x1 x2 : R,
    innovation_success_curve 1 = inr (Num x1)
    /\ innovation_success_curve 3 = inr (Num x2)
    /\ (3 <= 3.5 -> x1 <= x2)
    /\ (3.5 <= 1 -> x2 <= x1).
Proof.
  apply (success_curve_unimodal 1 3); range.
Defined.

(** X5. The scores leave a gap: an input in the optimal zone [2, 5] scores
    at least 0.675, any other input (up to 10^154 in magnitude) scores at
    most 0.3, so a score tells whether the input was in the zone. *)
Theorem success_curve_score_gap (c : R) :
  Rabs c <= 1e154 ->
  exists x : R,
    innovation_success_curve c = inr (Num x)
    /\ (0.675 <= x <-> 2 <= c <= 5)
    /\ (x <= 0.3 <-> c < 2 \/ 5 < c).
Proof.
  intros Hr. exists (Spec.SuccessCurve c).
  split; [apply success_curve_value; exact Hr |].
  destruct (Rlt_dec c 2) as [Hlow | Hlow].
  - pose proof (SuccessCurve_under c Hlow). split; split; intros; lra.
  - destruct (Rlt_dec 5 c) as [Hhigh | Hhigh].
    + pose proof (SuccessCurve_over c Hhigh). split; split; intros; lra.
    + destruct (SuccessCurve_optimal c ltac:(lra)).
      split; split; intros; lra.
Qed.

Lemma success_curve_score_gap_witness :
  exists x : R,
    innovation_success_curve 6 = inr (Num x)
    /\ (0.675 <= x <-> 2 <= 6 <= 5)
    /\ (x <= 0.3 <-> 6 < 2 \/ 5 < 6).
Proof.
  apply (success_curve_score_gap 6). range.
Defined.

(** X12. From 10^155 on in magnitude every input overflows the square of
    its penalty: the call raises [OverflowError] and returns nothing. *)
Theorem success_curve_overflow (c : R) :
  1e155 <= Rabs c ->
  innovation_success_curve c = inl OverflowError.
Proof.
  intros Hc.
  destruct (penalties_out_of_range c Hc) as [[Hlow Hov] | [Hhigh Hov]].
  - apply success_curve_underfitting_overflow; assumption.
  - apply success_curve_overfitting_overflow; assumption.
Qed.

Lemma success_curve_overflow_witness :
  innovation_success_curve (-1e160) = inl OverflowError.
Proof.
  apply (success_curve_overflow (-1e160)).
  rewrite Rabs_left by (eval_IZR; lra). eval_IZR. lra.
Defined.

(** ** The gospel value through square roots *)

Section GospelSqrt.

Variables p c r : R.

(** On inputs up to 10^50, [p ** 1.5] is [p * sqrt p] and [r ** 0.5] is
    [sqrt r]. *)
Lemma gospel_value_sqrt :
  0 <= p <= 1e50 -> Rabs c <= 1e50 -> 0 <= r <= 1e50 ->
  calculate_innovation_gospel_value p c r
  = inr (Num (Rmin 1.0 (p * sqrt p * (c * c) * sqrt r))).
Proof.
  intros Hp Hc Hr. rewrite gospel_value_in_range by assumption.
  rewrite rpow_three_halves, rpow_half by lra. reflexivity.
Qed.

Lemma gospel_sqrt_product_nonneg :
  0 <= p -> 0 <= r -> 0 <= p * sqrt p * (c * c) * sqrt r.
Proof.
  intros Hp Hr.
  pose proof (sqrt_pos p). pose proof (sqrt_pos r).
  pose proof (Rle_0_sqr c) as Hc. unfold Rsqr in Hc.
  apply Rmult_le_pos; [apply Rmult_le_pos; [apply Rmult_le_pos |] |]; assumption.
Qed.

End GospelSqrt.

Lemma sqrt_le_one (x : R) : 0 <= x <= 1 -> 0 <= sqrt x <= 1.
Proof.
  intros [H0 H1]. split; [apply sqrt_pos |].
  rewrite <- sqrt_1. apply sqrt_le_1; lra.
Qed.

(** X7. The sign of [peer_credibility] never matters: the call gives the
    same outcome, value or exception, on [- c] and on [c]. *)
Theorem gospel_value_even_in_credibility (p c r : R) :
  calculate_innovation_gospel_value p (- c) r
  = calculate_innovation_gospel_value p c r.
Proof.
  unfold calculate_innovation_gospel_value.
  rewrite !float_pow_2.
  replace (- c * - c) with (c * c) by ring.
  reflexivity.
Qed.

(** X8. On non-negative [paradox_strength] and [customer_readiness] and
    any [peer_credibility], all up to 10^50 in magnitude, the result is 0
    as soon as one of the three inputs is 0, and it is positive when all
    three are at least 10^-50 in magnitude. *)
Theorem gospel_value_zero_inputs (p c r : R) :
  0 <= p <= 1e50 -> Rabs c <= 1e50 -> 0 <= r <= 1e50 ->
  (p = 0 \/ c = 0 \/ r = 0 ->
   calculate_innovation_gospel_value p c r = inr (Num 0))
  /\ (1e-50 <= p -> 1e-50 <= Rabs c -> 1e-50 <= r ->
      exists x : R,
        calculate_innovation_gospel_value p c r = inr (Num x) /\ 0 < x).
Proof.
  intros Hp Hc Hr. rewrite gospel_value_sqrt by assumption.
  split.
  - intros Hzero. do 2 f_equal.
    assert (E : p * sqrt p * (c * c) * sqrt r = 0).
    { destruct Hzero as [-> | [-> | ->]].
      - ring.
      - ring.
      - rewrite sqrt_0. ring. }
    rewrite E. unfold Rmin. destruct (Rle_dec 1.0 0); lra.
  - intros Hp1 Hc1 Hr1. eexists. split; [reflexivity |].
    assert (Hp0 : 0 < p) by (eval_IZR; lra).
    assert (Hr0 : 0 < r) by (eval_IZR; lra).
    assert (Hc0 : 0 < c * c).
    { rewrite <- Rabs_mul_self. apply Rmult_lt_0_compat; eval_IZR; lra. }
    pose proof (sqrt_lt_R0 p Hp0). pose proof (sqrt_lt_R0 r Hr0).
    apply Rmin_glb_lt; [lra |].
    apply Rmult_lt_0_compat; [apply Rmult_lt_0_compat; [apply Rmult_lt_0_compat |] |];
      assumption.
Qed.

Lemma gospel_value_zero_inputs_witness :
  (0.8 = 0 \/ 0 = 0 \/ 0.7 = 0 ->
   calculate_innovation_gospel_value 0.8 0 0.7 = inr (Num 0))
  /\ (1e-50 <= 0.8 -> 1e-50 <= Rabs 0 -> 1e-50 <= 0.7 ->
      exists x : R,
        calculate_innovation_gospel_value 0.8 0 0.7 = inr (Num x) /\ 0 < x).
Proof.
  apply (gospel_value_zero_inputs 0.8 0 0.7); range.
Defined.

(** X9. On the inputs the model expects, [paradox_strength] and
    [customer_readiness] in [0, 1] and [peer_credibility] in [-1, 1], the
    clamp is never active: the result is the product itself. *)
Theorem gospel_value_unclamped_on_unit (p c r : R) :
  0 <= p <= 1 -> -1 <= c <= 1 -> 0 <= r <= 1 ->
  calculate_innovation_gospel_value p c r
  = inr (Num (p * sqrt p * (c * c) * sqrt r)).
Proof.
  intros Hp Hc Hr. rewrite gospel_value_sqrt by range.
  do 2 f_equal. apply Rmin_right.
  pose proof (sqrt_le_one p Hp) as [Hsp0 Hsp1].
  pose proof (sqrt_le_one r Hr) as [Hsr0 Hsr1].
  assert (Hcc : 0 <= c * c <= 1) by nra.
  assert (H1 : 0 <= p * sqrt p <= 1) by nra.
  assert (H2 : 0 <= p * sqrt p * (c * c) <= 1) by nra.
  nra.
Qed.

Lemma gospel_value_unclamped_on_unit_witness :
  calculate_innovation_gospel_value 0.8 0.9 0.7
  = inr (Num (0.8 * sqrt 0.8 * (0.9 * 0.9) * sqrt 0.7)).
Proof.
  apply (gospel_value_unclamped_on_unit 0.8 0.9 0.7); lra.
Defined.

(** ** The demonstration block *)

Section Rounding.

Lemma Int_part_unique (x : R) (n : Z) :
  IZR n <= x < IZR n + 1 -> Int_part x = n.
Proof.
  intros [Hlo Hhi].
  destruct (base_Int_part x) as [Hle Hgt].
  assert (H1 : (Int_part x < n + 1)%Z).
  { apply lt_IZR. rewrite plus_IZR. simpl. lra. }
  assert (H2 : (n < Int_part x + 1)%Z).
  { apply lt_IZR. rewrite plus_IZR. simpl. lra. }
  lia.
Qed.

(** Below the midpoint the rounding goes down. *)
Lemma round_half_even_down (x : R) (n : Z) :
  IZR n <= x < IZR n + 1 / 2 -> Script.round_half_even x = n.
Proof.
  intros Hx. unfold Script.round_half_even, frac_part.
  rewrite (Int_part_unique x n) by lra.
  destruct (Rlt_dec (x - IZR n) (1 / 2)); [reflexivity | lra].
Qed.

(** At the midpoint above an odd integer the rounding goes up. *)
Lemma round_half_even_tie_odd (x : R) (n : Z) :
  x = IZR n + 1 / 2 -> Z.even n = false -> Script.round_half_even x = (n + 1)%Z.
Proof.
  intros Hx Hodd. unfold Script.round_half_even, frac_part.
  rewrite (Int_part_unique x n) by lra.
  destruct (Rlt_dec (x - IZR n) (1 / 2)); [lra |].
  destruct (Rlt_dec (1 / 2) (x - IZR n)); [lra |].
  rewrite Hodd. reflexivity.
Qed.

Lemma format_2f_real_nonneg (x : R) (n : Z) :
  0 <= x -> Script.round_half_even (100 * x) = n ->
  Script.format_2f_real x = Script.format_hundredths n.
Proof.
  intros Hx Hn. unfold Script.format_2f_real.
  destruct (Rlt_dec x 0); [lra |].
  rewrite Rabs_pos_eq by exact Hx. rewrite Hn. reflexivity.
Qed.

End Rounding.

(** X11. Run as a script, the demonstration block raises nothing and
    prints four lines after whatever was printed before: the title, a rule
    of forty [=], the curve at 3 as 0.88 and the gospel value of
    (0.8, 0.9, 0.7) as 0.48. *)
Theorem main_prints (out : list string) :
  Script.main out
  = (out ++ ["Innovation Science Calculator"%string;
             "========================================"%string;
             "Spray-on dress constraint optimization: 0.88"%string;
             "Innovation gospel value: 0.48"%string],
     inr tt).
Proof.
  assert (Hcurve : Script.format_2f (Num 0.875) = "0.88"%string).
  { simpl. rewrite (format_2f_real_nonneg 0.875 88); [reflexivity | lra |].
    apply (round_half_even_tie_odd _ 87); [simpl; lra | reflexivity]. }
  pose proof gospel_reference_value as Hb.
  assert (Hgospel : Script.format_2f (Num (Spec.GospelValue 0.8 0.9 0.7)) = "0.48"%string).
  { simpl. rewrite (format_2f_real_nonneg _ 48); [reflexivity | lra |].
    apply round_half_even_down. simpl. lra. }
  unfold Script.main, Script.print, Script.call. simpl.
  rewrite spray_on_dress, gospel_reference_call.
  rewrite Hcurve, Hgospel.
  rewrite <- !app_assoc. reflexivity.
Qed.
